(** * The brute-force exact-cover search of community/optimization/exact_cover.ipynb

    The notebook reads a list of subsets from a JSON file into the global
    [list_of_subsets] and runs [brute_force], which enumerates the integers
    of [range(2**L)], turns each into a 0/1 vector with [bitfield] and asks
    the library predicate [exact_cover.check_solution_satisfiability]
    whether the vector is an exact cover.

    Python integers that are non-negative by construction ([len], [range])
    are [nat] or [N]; the integers of the JSON document and of the vectors
    are [Z].  A Python [str] is a list of characters.  Code that may raise
    returns an [outcome]; the notebook's cells run in a monad over the
    state of the kernel (the global, what was printed, and the calls made
    to the library predicate). *)

From Stdlib Require Import Ascii String.
From Stdlib Require Import List ZArith NArith Lia Bool.
Import ListNotations.

(** ** Python values, exceptions *)

Definition str : Type := list ascii.
Definition subset : Type := list Z.

Inductive exn : Type :=
| NameError (name : string)
| UnboundLocalError (name : string)
| ValueError
| OSError
| JSONDecodeError
| LibraryError (tag : string).

Inductive outcome (A : Type) : Type :=
| Ok (a : A)
| Raise (e : exn).
Arguments Ok {A} a.
Arguments Raise {A} e.

(** [int(digit)] on a one-character string. *)
Definition int_of_char (c : ascii) : outcome Z :=
  let n := nat_of_ascii c in
  if Nat.leb 48 n && Nat.leb n 57 then Ok (Z.of_nat (n - 48)) else Raise ValueError.

(** [[f(x) for x in xs]]: the first element on which [f] raises ends it. *)
Fixpoint comprehension {A B : Type} (f : A -> outcome B) (xs : list A) : outcome (list B) :=
  match xs with
  | [] => Ok []
  | x :: rest =>
      match f x with
      | Raise e => Raise e
      | Ok y =>
          match comprehension f rest with
          | Raise e => Raise e
          | Ok ys => Ok (y :: ys)
          end
      end
  end.

(** [range(n)] for [n >= 0]. *)
Definition range (n : N) : list N := map N.of_nat (seq 0 (N.to_nat n)).

(** ** numpy.binary_repr

    NumPy's function, on the arguments [range] can produce ([num >= 0],
    [width] given):
    [if num == 0: return '0' * (width or 1)], and for [num > 0]
    [binary = bin(num)[2:]; outwidth = max(len(binary), width);
     return binary.zfill(outwidth)].

    The definition stands for NumPy's on [num < 2^width], which is all
    [brute_force] passes.  With a width smaller than the number of digits
    NumPy's answer depends on its version (1.x warns and returns the digits
    as they are, 2.x raises [ValueError]); the properties of the notebook's
    code below are stated for [num < 2^width] only. *)

(** [bin(num)[2:]] for [num > 0]: the binary digits, most significant first. *)
Fixpoint bin_digits (p : positive) : str :=
  match p with
  | xH => ["1"%char]
  | xO q => bin_digits q ++ ["0"%char]
  | xI q => bin_digits q ++ ["1"%char]
  end.

(** [s.zfill(width)] on a string without sign. *)
Definition zfill (s : str) (width : nat) : str :=
  repeat "0"%char (width - length s) ++ s.

Definition binary_repr (num : N) (width : nat) : str :=
  match num with
  | N0 => repeat "0"%char (if Nat.eqb width 0 then 1 else width)
  | Npos p =>
      let binary := bin_digits p in
      let binwidth := length binary in
      let outwidth := Nat.max binwidth width in
      zfill binary outwidth
  end.

(** ** bitfield (local function of brute_force) *)

Definition bitfield (n : N) (L : nat) : outcome (list Z) :=
  let result := binary_repr n L in
  comprehension int_of_char result.

(** ** exact_cover.check_solution_satisfiability *)

(** The ground set X: every element of every subset. *)
Definition ground_set (subs : list subset) : list Z := concat subs.

(** Subset number [k] is included by [sol] when [sol[k] == 1]. *)
Definition included (sol : list Z) (k : nat) : bool := Z.eqb (nth k sol 0%Z) 1%Z.

Definition contains (s : subset) (x : Z) : bool := existsb (Z.eqb x) s.

(** The numbers of the included subsets that contain [x]. *)
Definition covering (sol : list Z) (subs : list subset) (x : Z) : list nat :=
  filter (fun k => included sol k && contains (nth k subs []) x) (seq 0 (length subs)).

(** Modelled from the spec: [exact_cover.check_solution_satisfiability] is a
    function of the external library (qiskit.aqua.translators.ising), whose
    code is not part of the repository.  The spec: "Declare a vector a
    solution if, for every element of X, the number of included subsets
    containing that element equals exactly one."  A vector shorter than the
    list of subsets includes none of the subsets it has no entry for. *)
Definition check_solution_satisfiability (sol : list Z) (subs : list subset) : bool :=
  forallb (fun x => Nat.eqb (length (covering sol subs x)) 1) (ground_set subs).

(** The library predicate as the notebook calls it: it returns, and does not
    raise. *)
Definition aqua_check (sol : list Z) (subs : list subset) : outcome bool :=
  Ok (check_solution_satisfiability sol subs).

(** ** The kernel and its monad *)

Inductive output : Type :=
| OutSubsets (subs : list subset)      (* print(list_of_subsets) *)
| OutSolution (cur : list Z)        (* print("Solution is", cur) *)
| OutNoSolution.                    (* print("No solution is found") *)

Record kernel : Type := mkKernel {
  list_of_subsets : option (list subset);   (* the global; unbound before cell 1 *)
  stdout : list output;                     (* newest first *)
  checks : list (list Z * list subset)      (* calls of the library predicate, newest first *)
}.

Definition M (A : Type) : Type := kernel -> outcome A * kernel.

Definition ret {A : Type} (a : A) : M A := fun k => (Ok a, k).

Definition bind {A B : Type} (c : M A) (f : A -> M B) : M B :=
  fun k =>
    match c k with
    | (Ok a, k') => f a k'
    | (Raise e, k') => (Raise e, k')
    end.

Definition raise {A : Type} (e : exn) : M A := fun k => (Raise e, k).

Definition lift {A : Type} (o : outcome A) : M A := fun k => (o, k).

Declare Scope py_scope.
Delimit Scope py_scope with py.
Notation "x <- c ;; f" := (bind c (fun x => f))
  (at level 61, c at next level, right associativity) : py_scope.
Notation "c ;; f" := (bind c (fun _ => f))
  (at level 61, right associativity) : py_scope.
Open Scope py_scope.

Definition load_global : M (list subset) :=
  fun k =>
    match list_of_subsets k with
    | Some subs => (Ok subs, k)
    | None => (Raise (NameError "list_of_subsets"), k)
    end.

Definition store_global (subs : list subset) : M unit :=
  fun k => (Ok tt, mkKernel (Some subs) (stdout k) (checks k)).

Definition print (o : output) : M unit :=
  fun k => (Ok tt, mkKernel (list_of_subsets k) (o :: stdout k) (checks k)).

Definition is_result (o : output) : bool :=
  match o with
  | OutSubsets _ => false
  | OutSolution _ => true
  | OutNoSolution => true
  end.

Section Notebook.

(** What the notebook calls and does not define. *)
Variable file : Type.
Variable open_ : string -> outcome file.
Variable json_load : file -> outcome (list subset).
Variable satisfiability : list Z -> list subset -> outcome bool.

Definition call_check (sol : list Z) (subs : list subset) : M bool :=
  fun k =>
    (satisfiability sol subs,
     mkKernel (list_of_subsets k) (stdout k) ((sol, subs) :: checks k)).

(** [for i in range(max): ...] with the locals [has_sol] and [cur]
    ([cur] is unbound until the first iteration). *)
Fixpoint for_loop (todo : list N) (L : nat) (has_sol : bool) (cur : option (list Z))
  : M (bool * option (list Z)) :=
  match todo with
  | [] => ret (has_sol, cur)
  | i :: rest =>
      c <- lift (bitfield i L) ;;
      subs <- load_global ;;
      cur_v <- call_check c subs ;;
      if cur_v : bool
      then ret (true, Some c)                       (* has_sol = True; break *)
      else for_loop rest L has_sol (Some c)
  end.

Definition brute_force : M (bool * list Z) :=
  subs <- load_global ;;
  let L := length subs in
  let max := (2 ^ N.of_nat L)%N in
  r <- for_loop (range max) L false None ;;
  match snd r with
  | Some cur => ret (fst r, cur)
  | None => raise (UnboundLocalError "cur")
  end.

Definition input_file : string := "sample.exactcover".

Definition cell_1 : M unit :=
  f <- lift (open_ input_file) ;;
  subs <- lift (json_load f) ;;
  store_global subs ;;
  subs' <- load_global ;;
  print (OutSubsets subs').

Definition cell_2 : M unit :=
  r <- brute_force ;;
  if fst r then print (OutSolution (snd r)) else print OutNoSolution.

Definition notebook : M unit := cell_1 ;; cell_2.

End Notebook.

(** ** Vocabulary of the statements *)

Definition is_bit (b : Z) : Prop := b = 0%Z \/ b = 1%Z.

(** The value of a vector read as a binary numeral, first entry most
    significant. *)
Definition big_endian (v : list Z) : Z :=
  fold_left (fun acc b => (2 * acc + b)%Z) v 0%Z.

(** The digits of [binary_repr n L] as integers: what [bitfield] returns
    when no [int(digit)] raises. *)
Definition digit_value (c : ascii) : Z := Z.of_nat (nat_of_ascii c - 48).

Definition bits (n : N) (L : nat) : list Z := map digit_value (binary_repr n L).

Definition binary_char (c : ascii) : Prop := c = "0"%char \/ c = "1"%char.

(** The calls of the library predicate for the integers [todo], in the
    order of [checks] (newest first). *)
Definition tried (L : nat) (subs : list subset) (todo : list N)
  : list (list Z * list subset) :=
  rev (map (fun i => (bits i L, subs)) todo).

(** The binding of [cur] after iterations over [todo]. *)
Definition cur_after (L : nat) (todo : list N) (cur : option (list Z))
  : option (list Z) :=
  match rev todo with
  | [] => cur
  | i :: _ => Some (bits i L)
  end.

(** A computation that leaves the global and the printed output as they
    were (it may add to the record of calls). *)
Definition frames {A : Type} (c : M A) : Prop :=
  forall k,
    list_of_subsets (snd (c k)) = list_of_subsets k
    /\ stdout (snd (c k)) = stdout k.

(** The sample instance of the notebook. *)
Definition sample : list subset :=
  [[2; 3; 4]; [1; 2]; [3; 4]; [1; 2; 3]]%Z.

(** An instance without exact cover: both subsets are needed to cover 1
    and 3, and both contain 2. *)
Definition overlapping : list subset := [[1; 2]; [2; 3]]%Z.

(** A kernel in which cell 1 has bound the global to [subs]. *)
Definition loaded (subs : list subset) (out : list output)
  (log : list (list Z * list subset)) : kernel :=
  mkKernel (Some subs) out log.

Example bitfield_6_4 : bitfield 6 4 = Ok [0; 1; 1; 0]%Z.
Proof. reflexivity. Qed.

Example brute_force_sample_run :
  fst (brute_force aqua_check (loaded sample [] [])) = Ok (true, [0; 1; 1; 0]%Z).
Proof. reflexivity. Qed.

(** * Binary representations *)

Section BinaryRepr.

Lemma bin_digits_binary (p : positive) : Forall binary_char (bin_digits p).
Proof.
  induction p as [q IH | q IH |]; simpl.
  - apply Forall_app; split; [exact IH | repeat constructor; now right].
  - apply Forall_app; split; [exact IH | repeat constructor; now left].
  - repeat constructor; now right.
Qed.

Lemma repeat_zero_binary (k : nat) : Forall binary_char (repeat "0"%char k).
Proof. induction k; simpl; constructor; [now left | assumption]. Qed.

Lemma binary_repr_binary (n : N) (L : nat) : Forall binary_char (binary_repr n L).
Proof.
  destruct n as [| p]; simpl.
  - apply repeat_zero_binary.
  - unfold zfill. apply Forall_app; split;
      [apply repeat_zero_binary | apply bin_digits_binary].
Qed.

Lemma comprehension_binary (s : str) :
  Forall binary_char s -> comprehension int_of_char s = Ok (map digit_value s).
Proof.
  induction 1 as [| c rest Hc _ IH]; simpl; [reflexivity |].
  rewrite IH. destruct Hc as [-> | ->]; reflexivity.
Qed.

Lemma bitfield_bits (n : N) (L : nat) : bitfield n L = Ok (bits n L).
Proof. apply comprehension_binary, binary_repr_binary. Qed.

Lemma bits_is_bit (n : N) (L : nat) : Forall is_bit (bits n L).
Proof.
  unfold bits. apply Forall_map.
  eapply Forall_impl; [| apply binary_repr_binary].
  intros c [-> | ->]; [now left | now right].
Qed.

Lemma fold_big_endian (v : list Z) (acc : Z) :
  fold_left (fun a b => (2 * a + b)%Z) v acc
  = (acc * 2 ^ Z.of_nat (length v) + big_endian v)%Z.
Proof.
  unfold big_endian. revert acc.
  induction v as [| b v IH]; intro acc; cbn [fold_left length].
  - simpl. lia.
  - rewrite (IH (2 * acc + b)%Z), (IH (2 * 0 + b)%Z).
    rewrite Nat2Z.inj_succ, Z.pow_succ_r by lia. lia.
Qed.

Lemma big_endian_cons (b : Z) (v : list Z) :
  big_endian (b :: v) = (b * 2 ^ Z.of_nat (length v) + big_endian v)%Z.
Proof.
  unfold big_endian at 1. cbn [fold_left].
  rewrite fold_big_endian. lia.
Qed.

Lemma big_endian_app (u v : list Z) :
  big_endian (u ++ v)
  = (big_endian u * 2 ^ Z.of_nat (length v) + big_endian v)%Z.
Proof.
  unfold big_endian at 1. rewrite fold_left_app.
  fold (big_endian u). apply fold_big_endian.
Qed.

Lemma big_endian_zeros (k : nat) : big_endian (repeat 0%Z k) = 0%Z.
Proof.
  induction k as [| k IH]; [reflexivity |].
  simpl repeat. rewrite big_endian_cons, IH. lia.
Qed.

Lemma big_endian_bin_digits (p : positive) :
  big_endian (map digit_value (bin_digits p)) = Zpos p.
Proof.
  induction p as [q IH | q IH |]; simpl bin_digits;
    [| | reflexivity];
    rewrite map_app, big_endian_app, IH; simpl; lia.
Qed.

Lemma big_endian_bits (n : N) (L : nat) : big_endian (bits n L) = Z.of_N n.
Proof.
  unfold bits. destruct n as [| p]; simpl binary_repr.
  - rewrite map_repeat. apply big_endian_zeros.
  - unfold zfill. rewrite map_app, map_repeat, big_endian_app.
    change (digit_value "0"%char) with 0%Z.
    rewrite big_endian_zeros, big_endian_bin_digits. reflexivity.
Qed.

Lemma bin_digits_length (p : positive) (L : nat) :
  (Npos p < 2 ^ N.of_nat L)%N -> length (bin_digits p) <= L.
Proof.
  revert L.
  induction p as [q IH | q IH |]; intros [| L] H; simpl bin_digits;
    try (simpl in H; lia);
    try (rewrite length_app; simpl length;
         rewrite Nat2N.inj_succ, N.pow_succ_r' in H;
         specialize (IH L); lia).
  simpl. lia.
Qed.

Lemma bits_length (n : N) (L : nat) :
  (n < 2 ^ N.of_nat L)%N -> length (bits n L) = Nat.max L 1.
Proof.
  intro H. unfold bits. rewrite length_map.
  destruct n as [| p]; simpl binary_repr.
  - rewrite repeat_length. destruct L; simpl; lia.
  - unfold zfill. rewrite length_app, repeat_length.
    pose proof (bin_digits_length p L H).
    assert (1 <= length (bin_digits p)) by (destruct p; simpl; rewrite ?length_app; simpl; lia).
    lia.
Qed.

End BinaryRepr.

(** * Bit vectors and their values *)

Section BitVectors.

Lemma big_endian_bound (v : list Z) :
  Forall is_bit v -> (0 <= big_endian v < 2 ^ Z.of_nat (length v))%Z.
Proof.
  induction 1 as [| b v Hb _ IH].
  - cbn. lia.
  - rewrite big_endian_cons. cbn [length].
    rewrite Nat2Z.inj_succ, Z.pow_succ_r by lia.
    destruct Hb as [-> | ->]; lia.
Qed.

Lemma big_endian_inj (u v : list Z) :
  Forall is_bit u -> Forall is_bit v -> length u = length v ->
  big_endian u = big_endian v -> u = v.
Proof.
  intro Hu. revert v.
  induction Hu as [| a u Ha Hu IH]; intros [| b v] Hv Hlen Hval;
    try discriminate; [reflexivity |].
  inversion Hv as [| ? ? Hb Hv']; subst.
  injection Hlen as Hlen.
  rewrite !big_endian_cons, <- Hlen in Hval.
  pose proof (big_endian_bound u Hu) as Bu.
  pose proof (big_endian_bound v Hv') as Bv.
  rewrite <- Hlen in Bv.
  assert (a = b) as -> by (destruct Ha as [-> | ->], Hb as [-> | ->]; lia).
  f_equal. apply IH; [assumption | assumption | lia].
Qed.

Lemma big_endian_ones (k : nat) :
  big_endian (repeat 1%Z k) = (2 ^ Z.of_nat k - 1)%Z.
Proof.
  induction k as [| k IH]; [reflexivity |].
  cbn [repeat]. rewrite big_endian_cons, IH, repeat_length.
  rewrite Nat2Z.inj_succ, Z.pow_succ_r by lia. lia.
Qed.

Lemma ones_is_bit (k : nat) : Forall is_bit (repeat 1%Z k).
Proof. induction k; simpl; constructor; [now right | assumption]. Qed.

Lemma pow2_N_Z (L : nat) : Z.of_N (2 ^ N.of_nat L) = (2 ^ Z.of_nat L)%Z.
Proof. rewrite N2Z.inj_pow, nat_N_Z. reflexivity. Qed.

Lemma pow2_N_pos (L : nat) : (0 < 2 ^ N.of_nat L)%N.
Proof. apply N.neq_0_lt_0, N.pow_nonzero. discriminate. Qed.

(** Every 0/1 vector of positive length is the candidate of its value. *)
Lemma bits_big_endian (v : list Z) :
  Forall is_bit v -> v <> [] ->
  bits (Z.to_N (big_endian v)) (length v) = v
  /\ (Z.to_N (big_endian v) < 2 ^ N.of_nat (length v))%N.
Proof.
  intros Hv Hne.
  pose proof (big_endian_bound v Hv) as B.
  assert (Hlt : (Z.to_N (big_endian v) < 2 ^ N.of_nat (length v))%N).
  { apply N2Z.inj_lt. rewrite Z2N.id, pow2_N_Z by lia. lia. }
  split; [| exact Hlt].
  apply big_endian_inj.
  - apply bits_is_bit.
  - assumption.
  - rewrite bits_length by assumption. destruct v; [contradiction | simpl; lia].
  - rewrite big_endian_bits, Z2N.id by lia. reflexivity.
Qed.

(** The last candidate is the all-ones vector. *)
Lemma bits_last (L : nat) :
  L <> 0 -> bits (2 ^ N.of_nat L - 1) L = repeat 1%Z L.
Proof.
  intro HL.
  pose proof (pow2_N_pos L) as Hpos.
  apply big_endian_inj.
  - apply bits_is_bit.
  - apply ones_is_bit.
  - rewrite bits_length, repeat_length by lia. lia.
  - rewrite big_endian_bits, big_endian_ones, N2Z.inj_sub, pow2_N_Z by lia.
    reflexivity.
Qed.

End BitVectors.

(** * The integers of range *)

Section Range.

Lemma range_In (n j : N) : In j (range n) <-> (j < n)%N.
Proof.
  unfold range. rewrite in_map_iff. split.
  - intros [k [<- Hk]]. apply in_seq in Hk. lia.
  - intro H. exists (N.to_nat j). split; [apply N2Nat.id |].
    apply in_seq. lia.
Qed.

Lemma range_length (n : N) : length (range n) = N.to_nat n.
Proof. unfold range. now rewrite length_map, length_seq. Qed.

Lemma range_split (n i : N) :
  (i < n)%N ->
  exists rest, range n = range i ++ i :: rest.
Proof.
  intro H. unfold range.
  replace (N.to_nat n) with (N.to_nat i + S (N.to_nat n - S (N.to_nat i))) by lia.
  rewrite seq_app, map_app. cbn [seq map Nat.add].
  rewrite N2Nat.id. eexists. reflexivity.
Qed.

Lemma range_succ (n : N) : range (n + 1) = range n ++ [n].
Proof.
  unfold range.
  replace (N.to_nat (n + 1)) with (N.to_nat n + 1) by lia.
  rewrite seq_app, map_app. cbn [seq map Nat.add]. now rewrite N2Nat.id.
Qed.

(** A predicate true somewhere below [n] has a least place where it is
    true. *)
Lemma least_true (p : N -> bool) (n : nat) :
  (exists i, (i < N.of_nat n)%N /\ p i = true) ->
  exists i, (i < N.of_nat n)%N /\ p i = true
            /\ forall j, (j < i)%N -> p j = false.
Proof.
  induction n as [| n IH]; intros [i [Hi Hp]]; [lia |].
  destruct (existsb p (range (N.of_nat n))) eqn:E.
  - apply existsb_exists in E. destruct E as [k [Hk Hpk]].
    apply range_In in Hk.
    destruct IH as [m [Hm [Hpm Hmin]]]; [now exists k |].
    exists m. repeat split; [lia | assumption | assumption].
  - assert (Hfalse : forall j, (j < N.of_nat n)%N -> p j = false).
    { intros j Hj. destruct (p j) eqn:Epj; [| reflexivity].
      assert (existsb p (range (N.of_nat n)) = true) as Hex
        by (apply existsb_exists; exists j; split; [now apply range_In | assumption]).
      congruence. }
    assert (i = N.of_nat n) as ->.
    { destruct (N.ltb_spec i (N.of_nat n)) as [Hlt | Hge]; [| lia].
      rewrite (Hfalse i Hlt) in Hp. discriminate. }
    exists (N.of_nat n). repeat split; [lia | assumption | assumption].
Qed.

End Range.

(** * The loop of brute_force *)

Section Loop.

Variable satisfiability : list Z -> list subset -> outcome bool.

(** One iteration, in a kernel where the global is bound. *)
Lemma for_loop_step (i : N) (rest : list N) (L : nat) (has_sol : bool)
  (cur : option (list Z)) (subs : list subset) out log :
  for_loop satisfiability (i :: rest) L has_sol cur (loaded subs out log)
  = match satisfiability (bits i L) subs with
    | Ok true =>
        (Ok (true, Some (bits i L)), loaded subs out ((bits i L, subs) :: log))
    | Ok false =>
        for_loop satisfiability rest L has_sol (Some (bits i L))
          (loaded subs out ((bits i L, subs) :: log))
    | Raise e => (Raise e, loaded subs out ((bits i L, subs) :: log))
    end.
Proof.
  cbn [for_loop]. unfold bind at 1. unfold lift. rewrite bitfield_bits.
  unfold bind, load_global, call_check, loaded. cbn.
  destruct (satisfiability (bits i L) subs) as [[|] | e]; reflexivity.
Qed.

(** Candidates the predicate rejects are passed over. *)
Lemma for_loop_skip (pre rest : list N) (L : nat) (subs : list subset) :
  (forall j, In j pre -> satisfiability (bits j L) subs = Ok false) ->
  forall has_sol cur out log,
    for_loop satisfiability (pre ++ rest) L has_sol cur (loaded subs out log)
    = for_loop satisfiability rest L has_sol (cur_after L pre cur)
        (loaded subs out (tried L subs pre ++ log)).
Proof.
  induction pre as [| j pre IH]; intros Hpre has_sol cur out log.
  - reflexivity.
  - cbn [app]. rewrite for_loop_step, (Hpre j) by now left.
    rewrite IH by (intros; apply Hpre; now right).
    f_equal.
    + unfold cur_after. cbn [rev].
      destruct (rev pre); reflexivity.
    + unfold tried. cbn [map rev]. now rewrite <- app_assoc.
Qed.

Lemma frames_ret {A : Type} (a : A) : frames (ret a).
Proof. intro k. split; reflexivity. Qed.

Lemma frames_raise {A : Type} (e : exn) : frames (@raise A e).
Proof. intro k. split; reflexivity. Qed.

Lemma frames_lift {A : Type} (o : outcome A) : frames (lift o).
Proof. intro k. split; reflexivity. Qed.

Lemma frames_load_global : frames load_global.
Proof.
  intro k. unfold load_global.
  destruct (list_of_subsets k) eqn:G; cbn [snd]; split; auto.
Qed.

Lemma frames_call_check (sol : list Z) (subs : list subset) :
  frames (call_check satisfiability sol subs).
Proof. intro k. split; reflexivity. Qed.

Lemma frames_bind {A B : Type} (c : M A) (f : A -> M B) :
  frames c -> (forall a, frames (f a)) -> frames (bind c f).
Proof.
  intros Hc Hf k. unfold bind.
  specialize (Hc k). destruct (c k) as [[a | e] k1]; cbn [snd] in Hc.
  - destruct (Hf a k1) as [H1 H2]. destruct Hc as [H3 H4].
    split; congruence.
  - exact Hc.
Qed.

(** The loop changes neither the global nor what was printed, whatever
    the predicate answers. *)
Lemma for_loop_frame (todo : list N) (L : nat) :
  forall has_sol cur, frames (for_loop satisfiability todo L has_sol cur).
Proof.
  induction todo as [| i rest IH]; intros has_sol cur; cbn [for_loop].
  - apply frames_ret.
  - apply frames_bind; [apply frames_lift | intro c].
    apply frames_bind; [apply frames_load_global | intro subs].
    apply frames_bind; [apply frames_call_check | intros [|]].
    + apply frames_ret.
    + apply IH.
Qed.

Lemma brute_force_frame : frames (brute_force satisfiability).
Proof.
  unfold brute_force.
  apply frames_bind; [apply frames_load_global | intro subs].
  apply frames_bind; [apply for_loop_frame | intros [has_sol [cur |]]].
  - apply frames_ret.
  - apply frames_raise.
Qed.

End Loop.

(** * brute_force, for any library predicate *)

Section BruteForce.

Variable satisfiability : list Z -> list subset -> outcome bool.

Lemma brute_force_loaded (subs : list subset) out log :
  brute_force satisfiability (loaded subs out log)
  = match for_loop satisfiability (range (2 ^ N.of_nat (length subs)))
            (length subs) false None (loaded subs out log) with
    | (Ok (has_sol, Some cur), k) => (Ok (has_sol, cur), k)
    | (Ok (_, None), k) => (Raise (UnboundLocalError "cur"), k)
    | (Raise e, k) => (Raise e, k)
    end.
Proof.
  unfold brute_force, bind at 1. cbn [load_global loaded list_of_subsets].
  unfold bind.
  destruct (for_loop _ _ _ _ _ _) as [[[has_sol [cur |]] | e] k]; reflexivity.
Qed.

Lemma tried_snoc (L : nat) (subs : list subset) (i : N) :
  tried L subs (range (i + 1)) = (bits i L, subs) :: tried L subs (range i).
Proof.
  unfold tried. now rewrite range_succ, map_app, rev_app_distr.
Qed.

Lemma tried_length (L : nat) (subs : list subset) (todo : list N) :
  length (tried L subs todo) = length todo.
Proof. unfold tried. now rewrite length_rev, length_map. Qed.

Section FirstAnswer.

Variables (subs : list subset) (i : N).
Let L := length subs.
Hypothesis Hi : (i < 2 ^ N.of_nat L)%N.
Hypothesis Hbefore :
  forall j, (j < i)%N -> satisfiability (bits j L) subs = Ok false.

(** The first candidate the predicate accepts is returned. *)
Lemma brute_force_found out log :
  satisfiability (bits i L) subs = Ok true ->
  brute_force satisfiability (loaded subs out log)
  = (Ok (true, bits i L),
     loaded subs out (tried L subs (range (i + 1)) ++ log)).
Proof.
  intro Hsat. rewrite brute_force_loaded. fold L.
  destruct (range_split _ _ Hi) as [rest ->].
  rewrite for_loop_skip by (intros j Hj; apply Hbefore, range_In, Hj).
  rewrite for_loop_step, Hsat, tried_snoc. reflexivity.
Qed.

(** An error of the predicate ends the search with that error. *)
Lemma brute_force_raises out log e :
  satisfiability (bits i L) subs = Raise e ->
  brute_force satisfiability (loaded subs out log)
  = (Raise e, loaded subs out (tried L subs (range (i + 1)) ++ log)).
Proof.
  intro Hsat. rewrite brute_force_loaded. fold L.
  destruct (range_split _ _ Hi) as [rest ->].
  rewrite for_loop_skip by (intros j Hj; apply Hbefore, range_In, Hj).
  rewrite for_loop_step, Hsat, tried_snoc. reflexivity.
Qed.

End FirstAnswer.

(** When the predicate rejects every candidate, the search returns
    [False] and the last candidate. *)
Lemma brute_force_exhausted (subs : list subset) out log :
  (forall j, (j < 2 ^ N.of_nat (length subs))%N ->
             satisfiability (bits j (length subs)) subs = Ok false) ->
  brute_force satisfiability (loaded subs out log)
  = (Ok (false, bits (2 ^ N.of_nat (length subs) - 1) (length subs)),
     loaded subs out
       (tried (length subs) subs (range (2 ^ N.of_nat (length subs))) ++ log)).
Proof.
  intro Hall. rewrite brute_force_loaded.
  set (L := length subs) in *.
  pose proof (pow2_N_pos L) as Hpos.
  rewrite <- (app_nil_r (range (2 ^ N.of_nat L))) at 1.
  rewrite for_loop_skip by (intros j Hj; apply Hall, range_In, Hj).
  cbn [for_loop ret]. unfold cur_after.
  replace (2 ^ N.of_nat L)%N with (2 ^ N.of_nat L - 1 + 1)%N at 1 by lia.
  rewrite range_succ, rev_app_distr. reflexivity.
Qed.

End BruteForce.

(** * The cover condition *)

Section CoverCondition.

Lemma covering_In (sol : list Z) (subs : list subset) (x : Z) (k : nat) :
  In k (covering sol subs x)
  <-> k < length subs /\ nth k sol 0%Z = 1%Z /\ In x (nth k subs []).
Proof.
  unfold covering, included, contains.
  rewrite filter_In, in_seq, andb_true_iff, Z.eqb_eq, existsb_exists.
  split.
  - intros [Hk [H1 [y [Hy Hxy]]]]. apply Z.eqb_eq in Hxy. subst y.
    repeat split; [lia | assumption | assumption].
  - intros [Hk [H1 Hx]]. repeat split; [lia | lia | assumption |].
    exists x. split; [assumption | apply Z.eqb_refl].
Qed.

Lemma covering_NoDup (sol : list Z) (subs : list subset) (x : Z) :
  NoDup (covering sol subs x).
Proof. apply NoDup_filter, seq_NoDup. Qed.

Lemma ground_set_In (subs : list subset) (x : Z) :
  In x (ground_set subs) <-> exists s, In s subs /\ In x s.
Proof. unfold ground_set. apply in_concat. Qed.

Lemma check_true_iff (sol : list Z) (subs : list subset) :
  check_solution_satisfiability sol subs = true
  <-> forall x, In x (ground_set subs) -> length (covering sol subs x) = 1.
Proof.
  unfold check_solution_satisfiability. rewrite forallb_forall.
  split; intros H x Hx; apply Nat.eqb_eq, H, Hx.
Qed.

(** With no subset there is no element to cover. *)
Lemma check_no_subsets (sol : list Z) :
  check_solution_satisfiability sol [] = true.
Proof. reflexivity. Qed.

(** Some 0/1 vector over the subsets is a cover exactly when some
    candidate of the enumeration is. *)
Lemma cover_among_candidates (subs : list subset) :
  (exists v, length v = length subs /\ Forall is_bit v
             /\ check_solution_satisfiability v subs = true)
  <-> (exists i, (i < 2 ^ N.of_nat (length subs))%N
                 /\ check_solution_satisfiability (bits i (length subs)) subs = true).
Proof.
  split.
  - intros [v [Hlen [Hv Hc]]].
    destruct subs as [| s subs].
    + exists 0%N. split; [reflexivity | apply check_no_subsets].
    + assert (Hne : v <> []) by (destruct v; [discriminate | discriminate]).
      destruct (bits_big_endian v Hv Hne) as [Hb Hlt].
      rewrite Hlen in Hb, Hlt.
      exists (Z.to_N (big_endian v)). split; [exact Hlt |].
      rewrite Hb. exact Hc.
  - intros [i [Hi Hc]].
    destruct subs as [| s subs].
    + exists []. split; [reflexivity | split; [constructor | apply check_no_subsets]].
    + exists (bits i (length (s :: subs))). split; [| split].
      * rewrite bits_length by assumption. simpl. lia.
      * apply bits_is_bit.
      * exact Hc.
Qed.

Lemma no_cover_among_candidates (subs : list subset) :
  (forall v, length v = length subs -> Forall is_bit v ->
             check_solution_satisfiability v subs = false) ->
  forall j, (j < 2 ^ N.of_nat (length subs))%N ->
            aqua_check (bits j (length subs)) subs = Ok false.
Proof.
  intros Hnone j Hj. unfold aqua_check.
  destruct (check_solution_satisfiability (bits j (length subs)) subs) eqn:E;
    [| reflexivity].
  destruct (proj2 (cover_among_candidates subs)) as [v [Hlen [Hv Hc]]];
    [now exists j |].
  rewrite (Hnone v Hlen Hv) in Hc. discriminate.
Qed.

(** The least candidate that is a cover, when some vector is one. *)
Lemma least_cover (subs : list subset) :
  (exists v, length v = length subs /\ Forall is_bit v
             /\ check_solution_satisfiability v subs = true) ->
  exists i, (i < 2 ^ N.of_nat (length subs))%N
            /\ check_solution_satisfiability (bits i (length subs)) subs = true
            /\ forall j, (j < i)%N ->
                 check_solution_satisfiability (bits j (length subs)) subs = false.
Proof.
  intro Hsat. apply cover_among_candidates in Hsat.
  destruct Hsat as [i [Hi Hc]].
  set (L := length subs) in *.
  destruct (least_true
              (fun j => check_solution_satisfiability (bits j L) subs)
              (N.to_nat (2 ^ N.of_nat L)))
    as [m [Hm [Hcm Hmin]]].
  - exists i. split; [lia | exact Hc].
  - exists m. split; [lia | split; [exact Hcm | exact Hmin]].
Qed.

End CoverCondition.

(** * The properties of the specification *)

(** C1. When some 0/1 vector over the [L] subsets is an exact cover,
    [brute_force] returns [has_sol = True] with the candidate of the least
    integer [i] in [[0, 2^L)] whose candidate is a cover; when no vector is
    one, it returns [has_sol = False] after checking all [2^L] candidates; and
    two runs from the same kernel state give the same result. *)
Theorem brute_force_first_cover (subs : list subset) out log :
  let L := length subs in
  let run := brute_force aqua_check (loaded subs out log) in
  ((exists v, length v = L /\ Forall is_bit v
              /\ check_solution_satisfiability v subs = true) ->
   exists i cur,
     (i < 2 ^ N.of_nat L)%N
     /\ bitfield i L = Ok cur
     /\ check_solution_satisfiability cur subs = true
     /\ (forall j c, (j < i)%N -> bitfield j L = Ok c ->
                     check_solution_satisfiability c subs = false)
     /\ fst run = Ok (true, cur))
  /\ ((forall v, length v = L -> Forall is_bit v ->
                 check_solution_satisfiability v subs = false) ->
      (exists cur, fst run = Ok (false, cur))
      /\ checks (snd run) = tried L subs (range (2 ^ N.of_nat L)) ++ log
      /\ length (checks (snd run)) = N.to_nat (2 ^ N.of_nat L) + length log)
  /\ (forall r1 r2,
        brute_force aqua_check (loaded subs out log) = r1 ->
        brute_force aqua_check (loaded subs out log) = r2 -> r1 = r2).
Proof.
  intros L run. split; [| split].
  - intro Hsat. destruct (least_cover subs Hsat) as [i [Hi [Hc Hmin]]].
    fold L in Hi, Hc, Hmin.
    exists i, (bits i L). split; [exact Hi |].
    split; [apply bitfield_bits |]. split; [exact Hc |]. split.
    + intros j c Hj Hb. rewrite bitfield_bits in Hb.
      injection Hb as <-. now apply Hmin.
    + unfold run. subst L. rewrite (brute_force_found aqua_check subs i Hi).
      * reflexivity.
      * intros j Hj. unfold aqua_check. now rewrite Hmin.
      * unfold aqua_check. now rewrite Hc.
  - intro Hnone. unfold run. subst L.
    rewrite (brute_force_exhausted aqua_check subs out log
               (no_cover_among_candidates subs Hnone)).
    cbn [fst snd checks loaded]. split; [eexists; reflexivity |].
    split; [reflexivity |].
    now rewrite length_app, tried_length, range_length.
  - intros r1 r2 <- <-. reflexivity.
Qed.

(** C2. On the sample [[[2,3,4],[1,2],[3,4],[1,2,3]]], [brute_force]
    returns [has_sol = True] and the vector [[0,1,1,0]], and that vector
    satisfies the cover condition for the sample. *)
Theorem brute_force_sample out log :
  fst (brute_force aqua_check (loaded sample out log)) = Ok (true, [0; 1; 1; 0]%Z)
  /\ check_solution_satisfiability [0; 1; 1; 0]%Z sample = true.
Proof. split; reflexivity. Qed.

(** C3, as the code has it. On the empty list of subsets [brute_force]
    stops after a single check and reports a solution: the ground set is
    empty, the cover condition holds of the one candidate [[0]], and the
    function returns [has_sol = True] with that vector. *)
Theorem brute_force_no_subsets out log :
  brute_force aqua_check (loaded [] out log)
  = (Ok (true, [0%Z]), loaded [] out (([0%Z], []) :: log)).
Proof. reflexivity. Qed.

(** C3, as stated, fails: on the empty list [brute_force] does not return
    [has_sol = False]. *)
Lemma brute_force_no_subsets_not_failure :
  fst (brute_force aqua_check (loaded [] [] [])) = Ok (true, [0%Z])
  /\ ~ (exists cur, fst (brute_force aqua_check (loaded [] [] [])) = Ok (false, cur)).
Proof.
  split; [reflexivity |].
  intros [cur H]. discriminate H.
Qed.

(** C4. The check returns true exactly when, for every element of the
    ground set (the union of all subsets), the number of subsets that the
    vector includes and that contain the element is one.  The subsets counted
    are the positions [k] below the number of subsets with [sol[k] = 1] and
    the element in subset [k], each position once. *)
Theorem check_solution_satisfiability_exactly_one (sol : list Z) (subs : list subset) :
  (check_solution_satisfiability sol subs = true
   <-> forall x, In x (ground_set subs) -> length (covering sol subs x) = 1)
  /\ (forall x k, In k (covering sol subs x)
                  <-> k < length subs /\ nth k sol 0%Z = 1%Z /\ In x (nth k subs []))
  /\ (forall x, NoDup (covering sol subs x))
  /\ (forall x, In x (ground_set subs) <-> exists s, In s subs /\ In x s).
Proof.
  split; [apply check_true_iff |].
  split; [intros x k; apply covering_In |].
  split; [intro x; apply covering_NoDup |].
  intro x; apply ground_set_In.
Qed.

(** C5, as the code has it. For every [i] with [0 <= i < 2^L], [bitfield(i, L)]
    returns a list of [max(L, 1)] entries (so exactly [L] when [L >= 1]),
    each 0 or 1, whose big-endian binary value is [i]. *)
Theorem bitfield_binary_expansion (i : N) (L : nat) :
  (i < 2 ^ N.of_nat L)%N ->
  exists v, bitfield i L = Ok v
            /\ length v = Nat.max L 1
            /\ (L <> 0 -> length v = L)
            /\ Forall is_bit v
            /\ big_endian v = Z.of_N i.
Proof.
  intro Hi. exists (bits i L).
  split; [apply bitfield_bits |].
  split; [now apply bits_length |].
  split; [intro HL; rewrite bits_length by assumption; lia |].
  split; [apply bits_is_bit | apply big_endian_bits].
Qed.

Lemma bitfield_binary_expansion_witness :
  (6 < 2 ^ N.of_nat 4)%N
  /\ exists v, bitfield 6 4 = Ok v
               /\ length v = Nat.max 4 1
               /\ (4 <> 0 -> length v = 4)
               /\ Forall is_bit v
               /\ big_endian v = Z.of_N 6.
Proof.
  split; [reflexivity | apply (bitfield_binary_expansion 6 4); reflexivity].
Defined.

(** C5, as stated, fails at [L = 0]: the one candidate [bitfield(0, 0)] is
    [[0]], a list of one entry, not of [L = 0] entries. *)
Lemma bitfield_zero_width :
  (0 < 2 ^ N.of_nat 0)%N
  /\ bitfield 0 0 = Ok [0%Z]
  /\ ~ (exists v, bitfield 0 0 = Ok v /\ length v = 0).
Proof.
  split; [reflexivity |]. split; [reflexivity |].
  intros [v [H Hlen]]. cbv in H. injection H as <-. discriminate Hlen.
Qed.

Lemma brute_force_first_cover_witness :
  (exists i cur,
      (i < 2 ^ N.of_nat 4)%N
      /\ bitfield i 4 = Ok cur
      /\ check_solution_satisfiability cur sample = true
      /\ fst (brute_force aqua_check (loaded sample [] [])) = Ok (true, cur))
  /\ (exists cur,
        fst (brute_force aqua_check (loaded overlapping [] [])) = Ok (false, cur)).
Proof.
  split.
  - destruct (proj1 (brute_force_first_cover sample [] []))
      as [i [cur [Hi [Hb [Hc [_ Hrun]]]]]].
    + exists [0; 1; 1; 0]%Z. split; [reflexivity |]. split; [| reflexivity].
      repeat constructor; (now left) || (now right).
    + exists i, cur. split; [exact Hi |]. split; [exact Hb |].
      split; [exact Hc | exact Hrun].
  - apply (proj1 (proj2 (brute_force_first_cover overlapping [] []))).
    intros [| a [| b [| c v]]] Hlen Hv; try discriminate Hlen.
    inversion Hv as [| ? ? Ha Hv']; subst.
    inversion Hv' as [| ? ? Hb _]; subst.
    destruct Ha as [-> | ->], Hb as [-> | ->]; reflexivity.
Defined.

(** C6. [brute_force] returns on every list of [L] subsets, after at least one
    and at most [2^L] evaluations of the check, one per integer of an initial
    segment of the enumeration; when no 0/1 vector is a cover it has evaluated
    the check [2^L] times and reports failure. *)
Theorem brute_force_check_count (subs : list subset) out log :
  let L := length subs in
  exists has_sol cur n,
    brute_force aqua_check (loaded subs out log)
    = (Ok (has_sol, cur), loaded subs out (tried L subs (range n) ++ log))
    /\ (1 <= n <= 2 ^ N.of_nat L)%N
    /\ length (tried L subs (range n)) = N.to_nat n
    /\ ((forall v, length v = L -> Forall is_bit v ->
                   check_solution_satisfiability v subs = false) ->
        has_sol = false /\ n = (2 ^ N.of_nat L)%N).
Proof.
  intro L. subst L.
  pose proof (pow2_N_pos (length subs)) as Hpos.
  destruct (existsb (fun i => check_solution_satisfiability (bits i (length subs)) subs)
              (range (2 ^ N.of_nat (length subs)))) eqn:E.
  - apply existsb_exists in E. destruct E as [i0 [Hi0 Hc0]].
    apply range_In in Hi0.
    assert (Hsat : exists v, length v = length subs /\ Forall is_bit v
                             /\ check_solution_satisfiability v subs = true)
      by (apply cover_among_candidates; now exists i0).
    destruct (least_cover subs Hsat) as [i [Hi [Hc Hmin]]].
    exists true, (bits i (length subs)), (i + 1)%N.
    split; [| split; [| split]].
    + apply brute_force_found; [exact Hi | |].
      * intros j Hj. unfold aqua_check. now rewrite Hmin.
      * unfold aqua_check. now rewrite Hc.
    + lia.
    + now rewrite tried_length, range_length.
    + intro Hnone. destruct Hsat as [v [Hlen [Hv Hcv]]].
      rewrite (Hnone v Hlen Hv) in Hcv. discriminate.
  - assert (Hall : forall j, (j < 2 ^ N.of_nat (length subs))%N ->
                             aqua_check (bits j (length subs)) subs = Ok false).
    { intros j Hj. unfold aqua_check. f_equal.
      destruct (check_solution_satisfiability (bits j (length subs)) subs) eqn:Ej;
        [| reflexivity].
      assert (existsb (fun i => check_solution_satisfiability (bits i (length subs)) subs)
                (range (2 ^ N.of_nat (length subs))) = true) as Hex
        by (apply existsb_exists; exists j; split; [now apply range_In | exact Ej]).
      congruence. }
    exists false, (bits (2 ^ N.of_nat (length subs) - 1) (length subs)), (2 ^ N.of_nat (length subs))%N.
    split; [| split; [| split]].
    + now apply brute_force_exhausted.
    + lia.
    + now rewrite tried_length, range_length.
    + intros _. split; reflexivity.
Qed.

Lemma brute_force_check_count_witness :
  exists has_sol cur n,
    brute_force aqua_check (loaded overlapping [] [])
    = (Ok (has_sol, cur), loaded overlapping [] (tried 2 overlapping (range n) ++ []))
    /\ (1 <= n <= 4)%N
    /\ has_sol = false /\ n = 4%N.
Proof.
  destruct (brute_force_check_count overlapping [] [])
    as [has_sol [cur [n [Hrun [Hn [_ Hnone]]]]]].
  exists has_sol, cur, n. split; [exact Hrun |]. split; [exact Hn |].
  apply Hnone.
  intros [| a [| b [| c v]]] Hlen Hv; try discriminate Hlen.
  inversion Hv as [| ? ? Ha Hv']; subst.
  inversion Hv' as [| ? ? Hb _]; subst.
  destruct Ha as [-> | ->], Hb as [-> | ->]; reflexivity.
Defined.

(** C9. On a non-empty list of [L] subsets without exact cover,
    [brute_force] returns [has_sol = False] together with the all-ones
    vector of length [L], the candidate of [2^L - 1]; that vector is not a
    cover. *)
Theorem brute_force_failure_vector (subs : list subset) out log :
  let L := length subs in
  subs <> [] ->
  (forall v, length v = L -> Forall is_bit v ->
             check_solution_satisfiability v subs = false) ->
  fst (brute_force aqua_check (loaded subs out log)) = Ok (false, repeat 1%Z L)
  /\ bitfield (2 ^ N.of_nat L - 1) L = Ok (repeat 1%Z L)
  /\ check_solution_satisfiability (repeat 1%Z L) subs = false.
Proof.
  intros L Hne Hnone.
  assert (HL : L <> 0) by (subst L; destruct subs; [contradiction | discriminate]).
  rewrite (brute_force_exhausted aqua_check subs out log
             (no_cover_among_candidates subs Hnone)).
  fold L. rewrite bitfield_bits, bits_last by exact HL.
  split; [reflexivity |]. split; [reflexivity |].
  apply Hnone; [apply repeat_length | apply ones_is_bit].
Qed.

Lemma brute_force_failure_vector_witness :
  fst (brute_force aqua_check (loaded overlapping [] [])) = Ok (false, [1; 1]%Z)
  /\ bitfield 3 2 = Ok [1; 1]%Z
  /\ check_solution_satisfiability [1; 1]%Z overlapping = false.
Proof.
  apply (brute_force_failure_vector overlapping [] []).
  - discriminate.
  - intros [| a [| b [| c v]]] Hlen Hv; try discriminate Hlen.
    inversion Hv as [| ? ? Ha Hv']; subst.
    inversion Hv' as [| ? ? Hb _]; subst.
    destruct Ha as [-> | ->], Hb as [-> | ->]; reflexivity.
Defined.

(** C10. [brute_force] leaves [list_of_subsets] as it found it, whatever
    the check answers (and it prints nothing). *)
Theorem brute_force_preserves_input
  (satisfiability : list Z -> list subset -> outcome bool) (k : kernel) :
  list_of_subsets (snd (brute_force satisfiability k)) = list_of_subsets k
  /\ stdout (snd (brute_force satisfiability k)) = stdout k.
Proof. apply brute_force_frame. Qed.

(** * The cells of the notebook *)

Section Propagation.

Variable file : Type.
Variable open_ : string -> outcome file.
Variable json_load : file -> outcome (list subset).
Variable satisfiability : list Z -> list subset -> outcome bool.

Local Abbreviation run_notebook := (notebook file open_ json_load satisfiability).

Lemma notebook_open_fails (k : kernel) (e : exn) :
  open_ input_file = Raise e -> run_notebook k = (Raise e, k).
Proof.
  intro H. unfold notebook, cell_1, bind, lift. rewrite H. reflexivity.
Qed.

Lemma notebook_parse_fails (k : kernel) (f : file) (e : exn) :
  open_ input_file = Ok f -> json_load f = Raise e ->
  run_notebook k = (Raise e, k).
Proof.
  intros Ho Hj. unfold notebook, cell_1, bind, lift. rewrite Ho, Hj. reflexivity.
Qed.

(** After a successful first cell the second runs with the global bound
    and the list of subsets printed. *)
Lemma notebook_loaded (k : kernel) (f : file) (subs : list subset) :
  open_ input_file = Ok f -> json_load f = Ok subs ->
  run_notebook k
  = cell_2 satisfiability (loaded subs (OutSubsets subs :: stdout k) (checks k)).
Proof.
  intros Ho Hj. unfold notebook, cell_1, bind at 1 2 3 4 5, lift.
  rewrite Ho, Hj. reflexivity.
Qed.

Lemma notebook_check_fails (k : kernel) (f : file) (subs : list subset)
  (i : N) (e : exn) :
  open_ input_file = Ok f -> json_load f = Ok subs ->
  (i < 2 ^ N.of_nat (length subs))%N ->
  (forall j, (j < i)%N -> satisfiability (bits j (length subs)) subs = Ok false) ->
  satisfiability (bits i (length subs)) subs = Raise e ->
  fst (run_notebook k) = Raise e
  /\ stdout (snd (run_notebook k)) = OutSubsets subs :: stdout k.
Proof.
  intros Ho Hj Hi Hbefore He.
  rewrite (notebook_loaded k f subs Ho Hj).
  unfold cell_2, bind.
  rewrite (brute_force_raises satisfiability subs i Hi Hbefore _ _ e He).
  split; reflexivity.
Qed.

(** A run ends with a result line printed last, or with an exception and
    no result line. *)
Lemma notebook_result_or_halt (k : kernel) :
  match run_notebook k with
  | (Ok _, k') =>
      exists o subs, is_result o = true
                     /\ stdout k' = o :: OutSubsets subs :: stdout k
  | (Raise _, k') =>
      stdout k' = stdout k
      \/ exists subs, stdout k' = OutSubsets subs :: stdout k
  end.
Proof.
  destruct (open_ input_file) as [f | e] eqn:Ho;
    [| rewrite (notebook_open_fails k e Ho); now left].
  destruct (json_load f) as [subs | e] eqn:Hj;
    [| rewrite (notebook_parse_fails k f e Ho Hj); now left].
  rewrite (notebook_loaded k f subs Ho Hj).
  set (k1 := loaded subs (OutSubsets subs :: stdout k) (checks k)).
  unfold cell_2, bind.
  destruct (brute_force_frame satisfiability k1) as [_ Hout].
  destruct (brute_force satisfiability k1) as [[[has_sol cur] | e] k2];
    cbn [snd fst] in *.
  - destruct has_sol; cbn; rewrite Hout.
    + exists (OutSolution cur), subs. split; reflexivity.
    + exists OutNoSolution, subs. split; reflexivity.
  - right. exists subs. exact Hout.
Qed.

End Propagation.

(** C8. Nothing in the two cells handles an exception.  When opening the
    input file raises, or parsing it raises, the run ends with that exception
    and nothing printed; when the check raises at some candidate (every
    earlier candidate having been rejected), the run ends with that exception
    and no result line after the printed list of subsets.  Every run either
    prints a result line last or ends with an exception and no result line. *)
Theorem notebook_no_recovery
  (file : Type) (open_ : string -> outcome file)
  (json_load : file -> outcome (list subset))
  (satisfiability : list Z -> list subset -> outcome bool) (k : kernel) :
  let run := notebook file open_ json_load satisfiability k in
  (forall e, open_ input_file = Raise e -> run = (Raise e, k))
  /\ (forall f e, open_ input_file = Ok f -> json_load f = Raise e ->
                  run = (Raise e, k))
  /\ (forall f subs i e,
        open_ input_file = Ok f -> json_load f = Ok subs ->
        (i < 2 ^ N.of_nat (length subs))%N ->
        (forall j c, (j < i)%N -> bitfield j (length subs) = Ok c ->
                     satisfiability c subs = Ok false) ->
        (forall c, bitfield i (length subs) = Ok c ->
                   satisfiability c subs = Raise e) ->
        fst run = Raise e
        /\ stdout (snd run) = OutSubsets subs :: stdout k)
  /\ match run with
     | (Ok _, k') =>
         exists o subs, is_result o = true
                        /\ stdout k' = o :: OutSubsets subs :: stdout k
     | (Raise _, k') =>
         stdout k' = stdout k
         \/ exists subs, stdout k' = OutSubsets subs :: stdout k
     end.
Proof.
  cbv zeta. split; [| split; [| split]].
  - intros e H. now apply notebook_open_fails.
  - intros f e Ho Hj. now apply notebook_parse_fails with (f := f).
  - intros f subs i e Ho Hj Hi Hbefore He.
    apply notebook_check_fails with (f := f) (i := i); try assumption.
    + intros j Hlt. apply (Hbefore j); [exact Hlt | apply bitfield_bits].
    + apply He, bitfield_bits.
  - apply notebook_result_or_halt.
Qed.

Lemma notebook_no_recovery_witness :
  notebook string (fun _ => Raise OSError) (fun _ => Ok sample) aqua_check
    (mkKernel None [] [])
  = (Raise OSError, mkKernel None [] [])
  /\ notebook string (fun name => Ok name) (fun _ => Raise JSONDecodeError) aqua_check
       (mkKernel None [] [])
     = (Raise JSONDecodeError, mkKernel None [] [])
  /\ (fst (notebook string (fun name => Ok name) (fun _ => Ok sample)
             (fun _ _ => Raise (LibraryError "check")) (mkKernel None [] []))
      = Raise (LibraryError "check")
      /\ stdout (snd (notebook string (fun name => Ok name) (fun _ => Ok sample)
                        (fun _ _ => Raise (LibraryError "check")) (mkKernel None [] [])))
         = [OutSubsets sample]).
Proof.
  split; [| split].
  - apply (proj1 (notebook_no_recovery string (fun _ => Raise OSError)
                    (fun _ => Ok sample) aqua_check (mkKernel None [] []))).
    reflexivity.
  - apply (proj1 (proj2 (notebook_no_recovery string (fun name => Ok name)
                           (fun _ => Raise JSONDecodeError) aqua_check
                           (mkKernel None [] []))) input_file);
      reflexivity.
  - apply (proj1 (proj2 (proj2 (notebook_no_recovery string (fun name => Ok name)
                                  (fun _ => Ok sample)
                                  (fun _ _ => Raise (LibraryError "check"))
                                  (mkKernel None [] []))))
             input_file sample 0%N).
    + reflexivity.
    + reflexivity.
    + reflexivity.
    + intros j c Hj. exfalso. destruct j; discriminate Hj.
    + reflexivity.
Defined.

(** * The candidates of the enumeration *)

Section Widths.

Lemma bits_inj (i j : N) (L : nat) : bits i L = bits j L -> i = j.
Proof.
  intro H. apply N2Z.inj. rewrite <- (big_endian_bits i L), <- (big_endian_bits j L).
  now rewrite H.
Qed.

Lemma comprehension_bitfield (L : nat) (todo : list N) :
  comprehension (fun i => bitfield i L) todo = Ok (map (fun i => bits i L) todo).
Proof.
  induction todo as [| i rest IH]; simpl; [reflexivity |].
  now rewrite bitfield_bits, IH.
Qed.

Lemma range_NoDup (n : N) : NoDup (range n).
Proof.
  unfold range. generalize (seq_NoDup (N.to_nat n) 0).
  induction 1 as [| k l Hk _ IH]; simpl; constructor; [| exact IH].
  rewrite in_map_iff. intros [m [Hm Hin]].
  apply Nat2N.inj in Hm. subst m. contradiction.
Qed.

Lemma candidates_NoDup (L : nat) (todo : list N) :
  NoDup todo -> NoDup (map (fun i => bits i L) todo).
Proof.
  induction 1 as [| i l Hi _ IH]; simpl; constructor; [| exact IH].
  rewrite in_map_iff. intros [j [Hj Hin]].
  apply bits_inj in Hj. subst j. contradiction.
Qed.

End Widths.

(** X2. Reading a vector as a binary numeral and building the candidate of
    that integer at the vector's length gives the vector back, for every
    non-empty 0/1 vector; for the empty vector it gives [[0]]. *)
Theorem bitfield_of_big_endian (v : list Z) :
  Forall is_bit v ->
  bitfield (Z.to_N (big_endian v)) (length v)
  = Ok (match v with [] => [0%Z] | _ :: _ => v end).
Proof.
  intro Hv. destruct v as [| b v]; [reflexivity |].
  rewrite bitfield_bits. f_equal.
  apply bits_big_endian; [exact Hv | discriminate].
Qed.

Lemma bitfield_of_big_endian_witness :
  bitfield (Z.to_N (big_endian [1; 0; 1]%Z)) 3 = Ok [1; 0; 1]%Z.
Proof.
  apply (bitfield_of_big_endian [1; 0; 1]%Z).
  repeat constructor; (now left) || (now right).
Defined.

(** X3. The loop never builds the same vector twice: for [n <= 2^L], the
    candidates of [range(n)] at width [L] are all built without an
    exception, one per integer, and are pairwise different. *)
Theorem candidates_distinct (L : nat) (n : N) :
  (n <= 2 ^ N.of_nat L)%N ->
  exists vs,
    comprehension (fun i => bitfield i L) (range n) = Ok vs
    /\ length vs = N.to_nat n
    /\ NoDup vs.
Proof.
  intros _.
  exists (map (fun i => bits i L) (range n)).
  split; [apply comprehension_bitfield |].
  split; [now rewrite length_map, range_length |].
  apply candidates_NoDup, range_NoDup.
Qed.

Lemma candidates_distinct_witness :
  exists vs,
    comprehension (fun i => bitfield i 4) (range 16) = Ok vs
    /\ length vs = N.to_nat 16
    /\ NoDup vs.
Proof. apply (candidates_distinct 4 16). vm_compute. discriminate. Defined.

(** X4. For [L >= 1] the candidates of [range(2**L)] are exactly the 0/1
    vectors of length [L]: the enumeration leaves no assignment out and
    builds nothing else. *)
Theorem candidates_exhaustive (L : nat) :
  L <> 0 ->
  exists vs,
    comprehension (fun i => bitfield i L) (range (2 ^ N.of_nat L)) = Ok vs
    /\ forall v, In v vs <-> length v = L /\ Forall is_bit v.
Proof.
  intro HL. exists (map (fun i => bits i L) (range (2 ^ N.of_nat L))).
  split; [apply comprehension_bitfield |].
  intro v. rewrite in_map_iff. split.
  - intros [i [<- Hi]]. apply range_In in Hi.
    split; [rewrite bits_length by exact Hi; lia | apply bits_is_bit].
  - intros [Hlen Hv].
    assert (Hne : v <> []) by (intros ->; simpl in Hlen; lia).
    destruct (bits_big_endian v Hv Hne) as [Hb Hlt].
    rewrite Hlen in Hb, Hlt.
    exists (Z.to_N (big_endian v)). split; [exact Hb | now apply range_In].
Qed.

Lemma candidates_exhaustive_witness :
  exists vs,
    comprehension (fun i => bitfield i 2) (range (2 ^ N.of_nat 2)) = Ok vs
    /\ forall v, In v vs <-> length v = 2 /\ Forall is_bit v.
Proof. apply (candidates_exhaustive 2). discriminate. Defined.

(** * brute_force under any behaviour of the check *)

Section AnyCheck.

Variable satisfiability : list Z -> list subset -> outcome bool.
Variable subs : list subset.

(** The search stops at the first candidate the check does not reject. *)
Lemma brute_force_cases out log :
  (exists i,
      (i < 2 ^ N.of_nat (length subs))%N
      /\ (forall j, (j < i)%N -> satisfiability (bits j (length subs)) subs = Ok false)
      /\ satisfiability (bits i (length subs)) subs = Ok true
      /\ brute_force satisfiability (loaded subs out log)
         = (Ok (true, bits i (length subs)),
            loaded subs out (tried (length subs) subs (range (i + 1)) ++ log)))
  \/ (exists i e,
        (i < 2 ^ N.of_nat (length subs))%N
        /\ (forall j, (j < i)%N -> satisfiability (bits j (length subs)) subs = Ok false)
        /\ satisfiability (bits i (length subs)) subs = Raise e
        /\ brute_force satisfiability (loaded subs out log)
           = (Raise e,
              loaded subs out (tried (length subs) subs (range (i + 1)) ++ log)))
  \/ ((forall j, (j < 2 ^ N.of_nat (length subs))%N ->
                 satisfiability (bits j (length subs)) subs = Ok false)
      /\ brute_force satisfiability (loaded subs out log)
         = (Ok (false, bits (2 ^ N.of_nat (length subs) - 1) (length subs)),
            loaded subs out
              (tried (length subs) subs (range (2 ^ N.of_nat (length subs))) ++ log))).
Proof.
  set (stops := fun i =>
         match satisfiability (bits i (length subs)) subs with
         | Ok false => false
         | _ => true
         end).
  assert (Hrej : forall i, stops i = false ->
                           satisfiability (bits i (length subs)) subs = Ok false).
  { intros i. unfold stops.
    destruct (satisfiability (bits i (length subs)) subs) as [[|] | e];
      [discriminate | reflexivity | discriminate]. }
  destruct (existsb stops (range (2 ^ N.of_nat (length subs)))) eqn:E.
  - apply existsb_exists in E. destruct E as [i0 [Hi0 Hs0]].
    apply range_In in Hi0.
    destruct (least_true stops (N.to_nat (2 ^ N.of_nat (length subs))))
      as [i [Hi [Hs Hmin]]]; [exists i0; split; [lia | exact Hs0] |].
    assert (Hi' : (i < 2 ^ N.of_nat (length subs))%N) by lia.
    assert (Hbefore : forall j, (j < i)%N ->
                        satisfiability (bits j (length subs)) subs = Ok false)
      by (intros j Hj; apply Hrej, Hmin, Hj).
    unfold stops in Hs.
    destruct (satisfiability (bits i (length subs)) subs) as [[|] | e] eqn:Hsat;
      [| discriminate |].
    + left. exists i. split; [exact Hi' |]. split; [exact Hbefore |].
      split; [exact Hsat |]. now apply brute_force_found.
    + right. left. exists i, e. split; [exact Hi' |]. split; [exact Hbefore |].
      split; [exact Hsat |]. now apply brute_force_raises.
  - assert (Hall : forall j, (j < 2 ^ N.of_nat (length subs))%N ->
                             satisfiability (bits j (length subs)) subs = Ok false).
    { intros j Hj. apply Hrej. destruct (stops j) eqn:Ej; [| reflexivity].
      assert (existsb stops (range (2 ^ N.of_nat (length subs))) = true) as Hex
        by (apply existsb_exists; exists j; split; [now apply range_In | exact Ej]).
      congruence. }
    right. right. split; [exact Hall | now apply brute_force_exhausted].
Qed.

End AnyCheck.

(** X5. With the global bound, and whatever the check does, [brute_force]
    stops at the first candidate the check does not reject: it returns
    [True] with that candidate if the check accepts it, ends with the check's
    exception if the check raises on it, and returns [False] with the last
    candidate when every candidate is rejected; the check is called once for
    each integer up to the stopping one, and for none after it. *)
Theorem brute_force_outcomes
  (satisfiability : list Z -> list subset -> outcome bool)
  (subs : list subset) out log :
  let L := length subs in
  let run := brute_force satisfiability (loaded subs out log) in
  (exists i,
      (i < 2 ^ N.of_nat L)%N
      /\ (forall j, (j < i)%N -> satisfiability (bits j L) subs = Ok false)
      /\ satisfiability (bits i L) subs = Ok true
      /\ run = (Ok (true, bits i L),
                loaded subs out (tried L subs (range (i + 1)) ++ log)))
  \/ (exists i e,
        (i < 2 ^ N.of_nat L)%N
        /\ (forall j, (j < i)%N -> satisfiability (bits j L) subs = Ok false)
        /\ satisfiability (bits i L) subs = Raise e
        /\ run = (Raise e, loaded subs out (tried L subs (range (i + 1)) ++ log)))
  \/ ((forall j, (j < 2 ^ N.of_nat L)%N -> satisfiability (bits j L) subs = Ok false)
      /\ run = (Ok (false, bits (2 ^ N.of_nat L - 1) L),
                loaded subs out (tried L subs (range (2 ^ N.of_nat L)) ++ log))).
Proof. cbv zeta. apply brute_force_cases. Qed.

(** X6. A vector returned with [has_sol = True] is one the check accepted: it
    is a 0/1 vector, the candidate of its own binary value, every candidate
    of a smaller integer was rejected, and the check was evaluated once more
    than that value. *)
Theorem brute_force_sound
  (satisfiability : list Z -> list subset -> outcome bool)
  (subs : list subset) out log (cur : list Z) (k' : kernel) :
  brute_force satisfiability (loaded subs out log) = (Ok (true, cur), k') ->
  satisfiability cur subs = Ok true
  /\ Forall is_bit cur
  /\ (0 <= big_endian cur < 2 ^ Z.of_nat (length subs))%Z
  /\ bitfield (Z.to_N (big_endian cur)) (length subs) = Ok cur
  /\ (forall j c, (Z.of_N j < big_endian cur)%Z ->
                  bitfield j (length subs) = Ok c ->
                  satisfiability c subs = Ok false)
  /\ length (checks k') = Z.to_nat (big_endian cur) + 1 + length log.
Proof.
  intro Hrun.
  destruct (brute_force_cases satisfiability subs out log)
    as [[i [Hi [Hbefore [Hsat Hr]]]] | [[i [e [_ [_ [_ Hr]]]]] | [_ Hr]]];
    rewrite Hr in Hrun; try discriminate Hrun.
  injection Hrun as <- <-.
  rewrite big_endian_bits, N2Z.id.
  split; [exact Hsat |]. split; [apply bits_is_bit |].
  split; [rewrite <- pow2_N_Z; lia |].
  split; [apply bitfield_bits |]. split.
  - intros j c Hj Hb. rewrite bitfield_bits in Hb. injection Hb as <-.
    apply Hbefore. lia.
  - cbn [checks loaded]. rewrite length_app, tried_length, range_length. lia.
Qed.

Lemma brute_force_sound_witness :
  aqua_check [0; 1; 1; 0]%Z sample = Ok true
  /\ Forall is_bit [0; 1; 1; 0]%Z
  /\ (0 <= big_endian [0; 1; 1; 0]%Z < 2 ^ Z.of_nat (length sample))%Z
  /\ bitfield (Z.to_N (big_endian [0; 1; 1; 0]%Z)) (length sample) = Ok [0; 1; 1; 0]%Z
  /\ (forall j c, (Z.of_N j < big_endian [0; 1; 1; 0]%Z)%Z ->
                  bitfield j (length sample) = Ok c ->
                  aqua_check c sample = Ok false)
  /\ length (checks (snd (brute_force aqua_check (loaded sample [] []))))
     = Z.to_nat (big_endian [0; 1; 1; 0]%Z) + 1 + length (@nil (list Z * list subset)).
Proof.
  apply (brute_force_sound aqua_check sample [] [] [0; 1; 1; 0]%Z
           (snd (brute_force aqua_check (loaded sample [] [])))).
  reflexivity.
Defined.

(** X7. With the global bound, the only exception [brute_force] can end with
    is one the check raised: the check raised it on some candidate after
    rejecting all the earlier ones.  The function raises nothing of its own
    (no [ValueError] from [int(digit)], no unbound [cur] at the [return]),
    and nothing has been printed or rebound when it ends so. *)
Theorem brute_force_raises_only_the_checks
  (satisfiability : list Z -> list subset -> outcome bool)
  (subs : list subset) out log (e : exn) (k' : kernel) :
  brute_force satisfiability (loaded subs out log) = (Raise e, k') ->
  (exists i c,
      (i < 2 ^ N.of_nat (length subs))%N
      /\ bitfield i (length subs) = Ok c
      /\ satisfiability c subs = Raise e
      /\ (forall j, (j < i)%N -> satisfiability (bits j (length subs)) subs = Ok false)
      /\ length (checks k') = N.to_nat i + 1 + length log)
  /\ list_of_subsets k' = Some subs
  /\ stdout k' = out.
Proof.
  intro Hrun.
  destruct (brute_force_cases satisfiability subs out log)
    as [[i [_ [_ [_ Hr]]]] | [[i [e' [Hi [Hbefore [Hsat Hr]]]]] | [_ Hr]]];
    rewrite Hr in Hrun; try discriminate Hrun.
  injection Hrun as <- <-.
  split; [| split; reflexivity].
  exists i, (bits i (length subs)).
  split; [exact Hi |]. split; [apply bitfield_bits |].
  split; [exact Hsat |]. split; [exact Hbefore |].
  cbn [checks loaded]. rewrite length_app, tried_length, range_length. lia.
Qed.

Lemma brute_force_raises_only_the_checks_witness :
  (exists i c,
      (i < 2 ^ N.of_nat (length sample))%N
      /\ bitfield i (length sample) = Ok c
      /\ (if Z.eqb (big_endian c) 3 then Raise (LibraryError "check") else Ok false)
         = Raise (LibraryError "check")
      /\ length (checks (snd (brute_force
                                (fun c _ => if Z.eqb (big_endian c) 3
                                            then Raise (LibraryError "check")
                                            else Ok false)
                                (loaded sample [] []))))
         = N.to_nat i + 1 + 0).
Proof.
  destruct (brute_force_raises_only_the_checks
              (fun c _ => if Z.eqb (big_endian c) 3
                          then Raise (LibraryError "check") else Ok false)
              sample [] [] (LibraryError "check")
              (snd (brute_force
                      (fun c _ => if Z.eqb (big_endian c) 3
                                  then Raise (LibraryError "check") else Ok false)
                      (loaded sample [] []))))
    as [[i [c [Hi [Hb [Hs [_ Hn]]]]]] _].
  - reflexivity.
  - exists i, c. split; [exact Hi |]. split; [exact Hb |].
    split; [exact Hs | exact Hn].
Defined.

(** X8. Run before cell 1 has bound [list_of_subsets], [brute_force] ends
    with [NameError] at [len(list_of_subsets)]: no candidate is built, the
    check is not called, and cell 2 prints nothing. *)
Theorem brute_force_unbound_global
  (satisfiability : list Z -> list subset -> outcome bool) (k : kernel) :
  list_of_subsets k = None ->
  brute_force satisfiability k = (Raise (NameError "list_of_subsets"), k)
  /\ cell_2 satisfiability k = (Raise (NameError "list_of_subsets"), k).
Proof.
  intro H. unfold cell_2, brute_force, bind, load_global.
  rewrite H. split; reflexivity.
Qed.

Lemma brute_force_unbound_global_witness :
  brute_force aqua_check (mkKernel None [] [])
  = (Raise (NameError "list_of_subsets"), mkKernel None [] [])
  /\ cell_2 aqua_check (mkKernel None [] [])
     = (Raise (NameError "list_of_subsets"), mkKernel None [] []).
Proof.
  apply (brute_force_unbound_global aqua_check (mkKernel None [] [])).
  reflexivity.
Defined.

(** X9. When the file opens and parses and the check raises on no
    candidate, cells 1 and 2 run to the end, whatever the kernel held
    before: the global is (re)bound to the parsed list, the list is printed,
    and exactly one result line follows, either "Solution is" with a 0/1
    vector the check accepted, or "No solution is found" when the check
    rejected every candidate. *)
Theorem notebook_prints_one_result
  (file : Type) (open_ : string -> outcome file)
  (json_load : file -> outcome (list subset))
  (satisfiability : list Z -> list subset -> outcome bool)
  (k : kernel) (f : file) (subs : list subset) :
  open_ input_file = Ok f ->
  json_load f = Ok subs ->
  (forall i c, (i < 2 ^ N.of_nat (length subs))%N ->
               bitfield i (length subs) = Ok c ->
               exists b, satisfiability c subs = Ok b) ->
  exists o k',
    notebook file open_ json_load satisfiability k = (Ok tt, k')
    /\ stdout k' = o :: OutSubsets subs :: stdout k
    /\ list_of_subsets k' = Some subs
    /\ match o with
       | OutSolution cur =>
           satisfiability cur subs = Ok true /\ Forall is_bit cur
       | OutNoSolution =>
           forall j c, (j < 2 ^ N.of_nat (length subs))%N ->
                       bitfield j (length subs) = Ok c ->
                       satisfiability c subs = Ok false
       | OutSubsets _ => False
       end.
Proof.
  intros Ho Hj Htotal.
  rewrite (notebook_loaded file open_ json_load satisfiability k f subs Ho Hj).
  unfold cell_2, bind.
  destruct (brute_force_cases satisfiability subs (OutSubsets subs :: stdout k) (checks k))
    as [[i [Hi [_ [Hsat Hr]]]] | [[i [e [Hi [_ [Hsat _]]]]] | [Hall Hr]]].
  - rewrite Hr. cbn [fst snd]. eexists. eexists.
    split; [reflexivity |]. split; [reflexivity |]. split; [reflexivity |].
    split; [exact Hsat | apply bits_is_bit].
  - destruct (Htotal i (bits i (length subs)) Hi (bitfield_bits _ _)) as [b Hb].
    rewrite Hb in Hsat. discriminate Hsat.
  - rewrite Hr. cbn [fst snd]. eexists. eexists.
    split; [reflexivity |]. split; [reflexivity |]. split; [reflexivity |].
    intros j c Hlt Hb. rewrite bitfield_bits in Hb. injection Hb as <-.
    now apply Hall.
Qed.

Lemma notebook_prints_one_result_witness :
  exists o k',
    notebook string (fun name => Ok name) (fun _ => Ok overlapping) aqua_check
      (mkKernel None [] [])
    = (Ok tt, k')
    /\ stdout k' = [o; OutSubsets overlapping]
    /\ list_of_subsets k' = Some overlapping
    /\ match o with
       | OutSolution cur => aqua_check cur overlapping = Ok true /\ Forall is_bit cur
       | OutNoSolution =>
           forall j c, (j < 2 ^ N.of_nat (length overlapping))%N ->
                       bitfield j (length overlapping) = Ok c ->
                       aqua_check c overlapping = Ok false
       | OutSubsets _ => False
       end.
Proof.
  apply (notebook_prints_one_result string (fun name => Ok name)
           (fun _ => Ok overlapping) aqua_check (mkKernel None [] [])
           input_file overlapping).
  - reflexivity.
  - reflexivity.
  - intros i c _ _. eexists. reflexivity.
Defined.
